(** * eoAPI raster: subdataset parameters

    A shallow embedding of the subdataset handling of
    [runtimes/eoapi/raster/eoapi/raster/app.py]:

    - [ReaderParams.__init__]            (lines 75-100)
    - [CustomReader.__attrs_post_init__] (lines 108-121)
    - [ItemAssetIdParams]                (lines 314-353)
    - [SdsParams]                        (lines 372-406)
    - the breadcrumbs of [landing]       (lines 544-557)

    together with the part of [urllib.parse] these functions call
    ([urlencode], [quote_plus], [quote], [quote_from_bytes]).

    A Python [str] is a sequence of Unicode code points and is modelled as a
    list of [N]; [str.encode("utf-8", "strict")] is partial (it rejects lone
    surrogates), so every function that reaches it returns a [result].
    Python [int] is [Z].  The interpreter's resource limits (memory, the
    configurable digit limit of int-to-str conversion) are outside the model. *)

From Stdlib Require Import List ZArith NArith Bool Lia.
From Stdlib Require Import Ascii String DecimalString DecimalPos DecimalZ.
Import ListNotations.

Local Open Scope N_scope.

(** ** Python values *)

Module Py.

(** A code point is an [N]; a [str] never holds one above [0x10FFFF]. *)
Abbreviation char := N (only parsing).
Abbreviation str := (list N) (only parsing).
Abbreviation bytes := (list N) (only parsing).

Definition of_ascii (a : ascii) : char := N_of_ascii a.

(** An ASCII literal of the source as a [str]. *)
Definition lit (s : string) : str := List.map of_ascii (list_ascii_of_string s).

Definition char_eqb (a b : char) : bool := N.eqb a b.

Fixpoint str_eqb (a b : str) : bool :=
  match a, b with
  | [], [] => true
  | x :: a', y :: b' => char_eqb x y && str_eqb a' b'
  | _, _ => false
  end.

(** [c in s] *)
Definition contains (c : char) (s : str) : bool := existsb (char_eqb c) s.

(** [s.replace(a, b)] for one-character [a] and [b]. *)
Definition replace_char (a b : char) (s : str) : str :=
  List.map (fun c => if char_eqb c a then b else c) s.

(** [sep.join(l)] *)
Fixpoint join (sep : str) (l : list str) : str :=
  match l with
  | [] => []
  | [x] => x
  | x :: rest => x ++ sep ++ join sep rest
  end.

(** [str(z)] for an [int]. *)
Definition str_of_int (z : Z) : str := lit (NilZero.string_of_int (Z.to_int z)).

(** Truth value of an [Optional[str]] and of an [Optional[List[int]]]:
    [None], the empty string and the empty list are false. *)
Definition truthy {A} (o : option (list A)) : bool :=
  match o with
  | Some (_ :: _) => true
  | _ => false
  end.

(** [a or b] where [a] is an [Optional[str]] and [b] a [str]. *)
Definition or_str (a : option str) (b : str) : str :=
  match a with
  | Some (c :: s) => c :: s
  | _ => b
  end.

(** Exceptions the modelled code can raise. *)
Inductive exn : Type :=
| UnicodeEncodeError
| KeyError
| TypeError
| NotFound.

Inductive result (A : Type) : Type :=
| Ok (a : A)
| Raise (e : exn).
Arguments Ok {A} a.
Arguments Raise {A} e.

Definition bind {A B} (r : result A) (k : A -> result B) : result B :=
  match r with
  | Ok a => k a
  | Raise e => Raise e
  end.

Fixpoint mapM {A B} (f : A -> result B) (l : list A) : result (list B) :=
  match l with
  | [] => Ok []
  | x :: rest =>
      bind (f x) (fun y => bind (mapM f rest) (fun ys => Ok (y :: ys)))
  end.

(** A [dict] keeps insertion order, which [urlencode] observes. *)
Definition dict (V : Type) := list (str * V).

(** [d[k] = v] *)
Fixpoint dict_set {V} (d : dict V) (k : str) (v : V) : dict V :=
  match d with
  | [] => [(k, v)]
  | (k', v') :: d' =>
      if str_eqb k' k then (k', v) :: d' else (k', v') :: dict_set d' k v
  end.

(** [d.get(k)] *)
Fixpoint dict_get {V} (d : dict V) (k : str) : option V :=
  match d with
  | [] => None
  | (k', v') :: d' => if str_eqb k' k then Some v' else dict_get d' k
  end.

(** [d[k]] *)
Definition dict_getitem {V} (d : dict V) (k : str) : result V :=
  match dict_get d k with
  | Some v => Ok v
  | None => Raise KeyError
  end.

(** Truth value of a [dict]. *)
Definition dict_truthy {V} (d : dict V) : bool :=
  match d with
  | [] => false
  | _ :: _ => true
  end.

End Py.

Import Py.

Declare Scope py_scope.
Delimit Scope py_scope with py.
Notation "x <- c ;; k" := (bind c (fun x => k))
  (at level 61, c at next level, right associativity) : py_scope.
Notation "'u' s" := (lit s%string) (at level 1, s at level 0, only parsing) : py_scope.
Local Open Scope py_scope.

(** ** urllib.parse *)

Module Urllib.

Definition is_surrogate (c : char) : bool := (0xD800 <=? c) && (c <=? 0xDFFF).

(** UTF-8 bytes of one code point, [errors="strict"]. *)
Definition utf8_encode_char (c : char) : result bytes :=
  if c <? 0x80 then Ok [c]
  else if c <? 0x800 then
    Ok [N.lor 0xC0 (N.shiftr c 6); N.lor 0x80 (N.land c 0x3F)]
  else if c <? 0x10000 then
    if is_surrogate c then Raise UnicodeEncodeError
    else Ok [N.lor 0xE0 (N.shiftr c 12);
             N.lor 0x80 (N.land (N.shiftr c 6) 0x3F);
             N.lor 0x80 (N.land c 0x3F)]
  else
    Ok [N.lor 0xF0 (N.land (N.shiftr c 18) 0x07);
        N.lor 0x80 (N.land (N.shiftr c 12) 0x3F);
        N.lor 0x80 (N.land (N.shiftr c 6) 0x3F);
        N.lor 0x80 (N.land c 0x3F)].

(** [s.encode("utf-8", "strict")] *)
Definition utf8_encode (s : str) : result bytes :=
  chunks <- mapM utf8_encode_char s ;; Ok (List.concat chunks).

(** [_ALWAYS_SAFE]: ASCII letters, digits and [_.-~]. *)
Definition always_safe (b : N) : bool :=
  ((0x41 <=? b) && (b <=? 0x5A)) || ((0x61 <=? b) && (b <=? 0x7A))
  || ((0x30 <=? b) && (b <=? 0x39))
  || (b =? 0x5F) || (b =? 0x2E) || (b =? 0x2D) || (b =? 0x7E).

(** [safe.encode("ascii", "ignore")] *)
Definition ascii_ignore (safe : str) : bytes := List.filter (fun c => c <? 128) safe.

Definition hex_digit (n : N) : char :=
  if n <? 10 then 0x30 + n else 0x41 + (n - 10).

(** [_Quoter.__missing__]: [chr(b) if b in safe else "%{:02X}".format(b)] *)
Definition quoter (safe : bytes) (b : N) : str :=
  if always_safe b || existsb (N.eqb b) safe then [b]
  else [0x25; hex_digit (b / 16); hex_digit (b mod 16)].

(** [quote_from_bytes(bs, safe)]; the early return for an input made of safe
    bytes only gives the same string as the general path modelled here. *)
Definition quote_from_bytes (bs : bytes) (safe : str) : str :=
  List.concat (List.map (quoter (ascii_ignore safe)) bs).

(** [quote(string, safe)] on a [str] *)
Definition quote (s : str) (safe : str) : result str :=
  match s with
  | [] => Ok s
  | _ => bs <- utf8_encode s ;; Ok (quote_from_bytes bs safe)
  end.

(** [quote_plus(string, safe)] on a [str] *)
Definition quote_plus (s : str) (safe : str) : result str :=
  if negb (contains 0x20 s) then quote s safe
  else q <- quote s (safe ++ [0x20]) ;; Ok (replace_char 0x20 0x2B q).

(** [urlencode(query, safe=safe)] on a [dict] with [str] keys and values *)
Definition urlencode (query : dict str) (safe : str) : result str :=
  l <- mapM (fun kv : str * str =>
               k <- quote_plus (fst kv) safe ;;
               v <- quote_plus (snd kv) safe ;;
               Ok (k ++ u"=" ++ v)) query ;;
  Ok (join u"&" l).

End Urllib.

Import Urllib.

(** ** External Dataset dependency: [SdsParams] *)

Definition SdsParams (url : str) (subdataset_name : option str)
    (subdataset_bands : option (list Z)) : result str :=
  let vrt_params : dict str := [] in
  let vrt_params :=
    match subdataset_name with
    | Some name => if truthy subdataset_name
                   then dict_set vrt_params u"sd_name" name else vrt_params
    | None => vrt_params
    end in
  let vrt_params :=
    match subdataset_bands with
    | Some bands => if truthy subdataset_bands
                    then dict_set vrt_params u"bands"
                           (join u"," (List.map str_of_int bands))
                    else vrt_params
    | None => vrt_params
    end in
  if dict_truthy vrt_params then
    params <- urlencode vrt_params u"," ;;
    Ok (u"vrt:///vsicurl/" ++ url ++ u"?" ++ params)
  else Ok url.

(** ** Reader dependency: [ReaderParams] *)

(** A value stored in [reader_options]. *)
Inductive value : Type :=
| VStr (s : str)
| VInts (l : list Z).

Record ReaderParams : Type := mkReaderParams { reader_options : dict value }.

(** [ReaderParams.__init__] *)
Definition ReaderParams_init (subdataset_name : option str)
    (subdataset_bands : option (list Z)) : result ReaderParams :=
  let params : dict value := [] in
  let params :=
    match subdataset_name with
    | Some name => if truthy subdataset_name
                   then dict_set params u"subdataset_name" (VStr name) else params
    | None => params
    end in
  let params :=
    match subdataset_bands with
    | Some bands => if truthy subdataset_bands
                    then dict_set params u"subdataset_bands" (VInts bands)
                    else params
    | None => params
    end in
  Ok {| reader_options := params |}.

(** ** [CustomReader] *)

(** The attributes of [rio_tiler.io.Reader] other than [input] play no part
    in the rewriting and are left out. *)
Record CustomReader : Type := mkCustomReader {
  input : str;
  subdataset_name : option str;
  subdataset_bands : option (list Z)
}.

(** [CustomReader.__attrs_post_init__], lines 109-120: the rewriting of
    [input].  Line 121 then hands over to the parent's post-init, which opens
    the dataset named by [input], can fail there and sets the reader's other
    attributes; that call is outside the model, so this function says what
    [input] holds when the parent takes over, and nothing about the reader
    afterwards. *)
Definition CustomReader_attrs_post_init (self : CustomReader) : result CustomReader :=
  let vrt_params : dict str := [] in
  let vrt_params :=
    match subdataset_name self with
    | Some name => if truthy (subdataset_name self)
                   then dict_set vrt_params u"sd_name" name else vrt_params
    | None => vrt_params
    end in
  let vrt_params :=
    match subdataset_bands self with
    | Some bands => if truthy (subdataset_bands self)
                    then dict_set vrt_params u"bands"
                           (join u"," (List.map str_of_int bands))
                    else vrt_params
    | None => vrt_params
    end in
  if dict_truthy vrt_params then
    params <- urlencode vrt_params u"," ;;
    Ok {| input := u"vrt:///vsicurl/" ++ input self ++ u"?" ++ params;
          subdataset_name := subdataset_name self;
          subdataset_bands := subdataset_bands self |}
  else Ok self.

(** ** STAC Item Asset dependency: [ItemAssetIdParams] *)

(** A [pystac] asset as this file uses it: its [href] and what its
    [get_absolute_href()] returns. *)
Record Asset : Type := mkAsset {
  href : str;
  get_absolute_href : option str
}.

Record Item : Type := mkItem { assets : dict Asset }.

(** [get_stac_item] with the connection pool of the request applied. *)
Definition StacLookup := str -> str -> result Item.

Definition ItemAssetIdParams (get_stac_item : StacLookup)
    (collection_id item_id asset_id : str)
    (subdataset_name : option str) (subdataset_bands : option (list Z))
    : result str :=
  item <- get_stac_item collection_id item_id ;;
  asset_info <- dict_getitem (assets item) asset_id ;;
  let url := or_str (get_absolute_href asset_info) (href asset_info) in
  let vrt_params : dict str := [] in
  let vrt_params :=
    match subdataset_name with
    | Some name => if truthy subdataset_name
                   then dict_set vrt_params u"sd_name" name else vrt_params
    | None => vrt_params
    end in
  let vrt_params :=
    match subdataset_bands with
    | Some bands => if truthy subdataset_bands
                    then dict_set vrt_params u"bands"
                           (join u"," (List.map str_of_int bands))
                    else vrt_params
    | None => vrt_params
    end in
  if dict_truthy vrt_params then
    params <- urlencode vrt_params u"," ;;
    Ok (u"vrt:///vsicurl/" ++ url ++ u"?" ++ params)
  else Ok url.

(** ** Landing page: the breadcrumbs of [landing] (lines 544-557) *)

(** [s.split(sep)] for a one-character [sep]. *)
Fixpoint split_char (sep : char) (s : str) : list str :=
  match s with
  | [] => [[]]
  | c :: rest =>
      if char_eqb c sep then [] :: split_char sep rest
      else match split_char sep rest with
           | seg :: segs => (c :: seg) :: segs
           | [] => [[c]]
           end
  end.

(** [s.rstrip(c)] for a one-character [c]. *)
Fixpoint rstrip_char (c : char) (s : str) : str :=
  match s with
  | [] => []
  | x :: rest =>
      match rstrip_char c rest with
      | [] => if char_eqb x c then [] else [x]
      | rest' => x :: rest'
      end
  end.

(** One entry of [crumbs]: the dict with the keys [url] and [part]. *)
Record Crumb : Type := mkCrumb {
  crumb_url : str;
  crumb_part : str
}.

Section Landing.

(** [str.capitalize], which depends on the Unicode case tables. *)
Variable capitalize : str -> str.

(** The body of the [for crumb in urlpath.split("/")] loop, on the pair
    of [crumbpath] and [crumbs]. *)
Definition crumb_step (st : str * list Crumb) (crumb : str) : str * list Crumb :=
  let crumbpath := rstrip_char 0x2F (fst st) in
  let part := crumb in
  let part := if str_eqb part [] then u"Home" else part in
  let crumbpath := crumbpath ++ u"/" ++ crumb in
  (crumbpath,
   snd st ++ [{| crumb_url := rstrip_char 0x2F crumbpath;
                 crumb_part := capitalize part |}]).

(** Lines 547-557: [base_url] is [str(request.base_url)] and [urlpath] the
    request path once the root path has been cut off (line 546). *)
Definition landing_crumbs (base_url urlpath : str) : list Crumb :=
  let crumbs : list Crumb := [] in
  let baseurl := rstrip_char 0x2F base_url in
  let crumbpath := baseurl in
  snd (fold_left crumb_step (split_char 0x2F urlpath) (crumbpath, crumbs)).

End Landing.

(** ** Auxiliary notions for the statements *)

(** Characters that [quote_plus(_, safe=",")] leaves alone. *)
Definition unquoted (c : char) : bool := always_safe c || (c =? 0x2C).

(** What [pystac]'s [get_absolute_href()] returns: [None], or an absolute
    href, which is never the empty string. *)
Definition absolute_href_well_formed (a : Asset) : Prop :=
  get_absolute_href a <> Some [].

(** A string without lone surrogates: what [encode("utf-8")] accepts. *)
Definition no_surrogate (s : str) : Prop := Forall (fun c => is_surrogate c = false) s.




Definition result_map {A B} (f : A -> B) (r : result A) : result B :=
  match r with
  | Ok a => Ok (f a)
  | Raise e => Raise e
  end.

(** Characters an encoded query value is made of: the unquoted ones, the
    percent sign of an escape and the plus sign that stands for a space. *)
Definition query_char (c : char) : bool := unquoted c || (c =? 0x25) || (c =? 0x2B).

(** A base followed by the non-empty segments of a path, each after a slash. *)
Definition collapsed (base : str) (segs : list str) : str :=
  base ++ List.concat
            (List.map (fun seg => u"/" ++ seg)
               (List.filter (fun seg => negb (str_eqb seg [])) segs)).

(** [x] is not the character [c]. *)
Definition differs (c : char) (x : char) : Prop := char_eqb x c = false.

(** The crumbs of the segments [segs] that follow the segments [pre]. *)
Fixpoint crumbs_from (capitalize : str -> str) (base : str) (pre segs : list str)
    : list Crumb :=
  match segs with
  | [] => []
  | seg :: rest =>
      {| crumb_url := collapsed base (pre ++ [seg]);
         crumb_part := capitalize (if str_eqb seg [] then u"Home" else seg) |}
      :: crumbs_from capitalize base (pre ++ [seg]) rest
  end.

(** [str.capitalize] on ASCII letters, for the examples. *)
Definition ascii_capitalize (s : str) : str :=
  match s with
  | [] => []
  | c :: rest =>
      (if (0x61 <=? c) && (c <=? 0x7A) then c - 0x20 else c)
      :: List.map (fun x => if (0x41 <=? x) && (x <=? 0x5A) then x + 0x20 else x) rest
  end.

(** ** Sanity checks *)

Example quote_plus_ex :
  quote_plus (u"a b/" ++ [0xE9; 0x20AC; 0x1F600]) u","
  = Ok u"a+b%2F%C3%A9%E2%82%AC%F0%9F%98%80".
Proof. vm_compute. reflexivity. Qed.

Example str_of_int_ex :
  List.map str_of_int [0; 5; -12; 4300]%Z = [u"0"; u"5"; u"-12"; u"4300"].
Proof. vm_compute. reflexivity. Qed.

(** ** Lemmas on the model *)

Lemma always_safe_ascii (c : char) : always_safe c = true -> c < 0x80.
Proof.
  unfold always_safe.
  rewrite !orb_true_iff, !andb_true_iff, !N.leb_le, !N.eqb_eq. lia.
Qed.

Lemma unquoted_ascii (c : char) : unquoted c = true -> c < 0x80.
Proof.
  unfold unquoted. rewrite orb_true_iff, N.eqb_eq.
  intros [H| ->]; [now apply always_safe_ascii | lia].
Qed.

Lemma unquoted_not_space (c : char) : unquoted c = true -> char_eqb 0x20 c = false.
Proof.
  intros H. unfold char_eqb. apply N.eqb_neq. intros <-. discriminate H.
Qed.

Lemma unquoted_not_percent (c : char) : unquoted c = true -> char_eqb 0x25 c = false.
Proof.
  intros H. unfold char_eqb. apply N.eqb_neq. intros <-. discriminate H.
Qed.

Lemma quoter_unquoted (c : char) :
  unquoted c = true -> quoter (ascii_ignore u",") c = [c].
Proof.
  unfold unquoted, quoter. intros H.
  replace (existsb (N.eqb c) (ascii_ignore u",")) with ((c =? 0x2C) || false)
    by reflexivity.
  rewrite orb_false_r, H. reflexivity.
Qed.

Lemma utf8_encode_char_ascii (c : char) : c < 0x80 -> utf8_encode_char c = Ok [c].
Proof.
  intros H. unfold utf8_encode_char.
  destruct (N.ltb_spec c 0x80); [reflexivity | lia].
Qed.

Lemma mapM_utf8_unquoted (s : str) :
  Forall (fun c => unquoted c = true) s ->
  mapM utf8_encode_char s = Ok (List.map (fun c => [c]) s).
Proof.
  induction 1 as [|c s Hc Hs IH]; simpl; [reflexivity|].
  rewrite utf8_encode_char_ascii by now apply unquoted_ascii.
  simpl. rewrite IH. reflexivity.
Qed.

Lemma concat_singletons {X} (l : list X) : List.concat (List.map (fun c => [c]) l) = l.
Proof. induction l; simpl; congruence. Qed.

Lemma quote_from_bytes_unquoted (s : str) :
  Forall (fun c => unquoted c = true) s -> quote_from_bytes s u"," = s.
Proof.
  unfold quote_from_bytes.
  induction 1 as [|c s Hc Hs IH]; [reflexivity|].
  cbn [List.map List.concat].
  rewrite quoter_unquoted by assumption. rewrite IH. reflexivity.
Qed.

Lemma contains_unquoted (c0 : char) (s : str) :
  (forall c, unquoted c = true -> char_eqb c0 c = false) ->
  Forall (fun c => unquoted c = true) s -> contains c0 s = false.
Proof.
  intros H0. unfold contains.
  induction 1 as [|c s Hc Hs IH]; simpl; [reflexivity|].
  now rewrite H0, IH.
Qed.

(** A string of letters, digits, [_.-~] and commas is its own encoding. *)
Lemma quote_plus_unquoted (s : str) :
  Forall (fun c => unquoted c = true) s -> quote_plus s u"," = Ok s.
Proof.
  intros H. unfold quote_plus.
  rewrite (contains_unquoted 0x20 s unquoted_not_space H). simpl.
  unfold quote. destruct s as [|c s]; [reflexivity|].
  unfold utf8_encode. rewrite (mapM_utf8_unquoted _ H). simpl bind.
  rewrite concat_singletons. now rewrite quote_from_bytes_unquoted.
Qed.

Lemma string_of_uint_unquoted (d : Decimal.uint) :
  Forall (fun c => unquoted c = true) (lit (NilEmpty.string_of_uint d)).
Proof.
  induction d; simpl; constructor; (reflexivity || assumption).
Qed.

Lemma str_of_int_unquoted (z : Z) :
  Forall (fun c => unquoted c = true) (str_of_int z).
Proof.
  unfold str_of_int, NilZero.string_of_int, NilZero.string_of_uint.
  destruct (Z.to_int z) as [d|d]; destruct d;
    repeat (constructor; try reflexivity);
    apply (string_of_uint_unquoted d).
Qed.

Lemma join_comma_unquoted (l : list str) :
  Forall (Forall (fun c => unquoted c = true)) l ->
  Forall (fun c => unquoted c = true) (join u"," l).
Proof.
  induction 1 as [|x l Hx Hl IH]; [constructor|].
  destruct l as [|y l]; [exact Hx|].
  change (join u"," (x :: y :: l)) with (x ++ u"," ++ join u"," (y :: l)).
  apply Forall_app. split; [exact Hx|].
  apply Forall_app. split; [|exact IH].
  repeat constructor.
Qed.

(** The rendered band list: digits, minus signs and commas only. *)
Lemma bands_unquoted (bands : list Z) :
  Forall (fun c => unquoted c = true) (join u"," (List.map str_of_int bands)).
Proof.
  apply join_comma_unquoted. apply Forall_map.
  apply Forall_forall. intros z _. apply str_of_int_unquoted.
Qed.

Lemma quote_plus_bands (bands : list Z) :
  quote_plus (join u"," (List.map str_of_int bands)) u","
  = Ok (join u"," (List.map str_of_int bands)).
Proof. apply quote_plus_unquoted, bands_unquoted. Qed.

(** [urlencode] on the two shapes of [vrt_params]. *)
Lemma urlencode_one (k v k' v' safe : str) :
  quote_plus k safe = Ok k' -> quote_plus v safe = Ok v' ->
  urlencode [(k, v)] safe = Ok (k' ++ u"=" ++ v').
Proof.
  intros Hk Hv. unfold urlencode. cbn [mapM fst snd].
  rewrite Hk, Hv. reflexivity.
Qed.

Lemma urlencode_two (k1 v1 k2 v2 k1' v1' k2' v2' safe : str) :
  quote_plus k1 safe = Ok k1' -> quote_plus v1 safe = Ok v1' ->
  quote_plus k2 safe = Ok k2' -> quote_plus v2 safe = Ok v2' ->
  urlencode [(k1, v1); (k2, v2)] safe
  = Ok ((k1' ++ u"=" ++ v1') ++ u"&" ++ (k2' ++ u"=" ++ v2')).
Proof.
  intros H1 H2 H3 H4. unfold urlencode. cbn [mapM fst snd].
  rewrite H1, H2, H3, H4. reflexivity.
Qed.

Lemma urlencode_raise_value (k v k' safe : str) (rest : dict str) (e : exn) :
  quote_plus k safe = Ok k' -> quote_plus v safe = Raise e ->
  urlencode ((k, v) :: rest) safe = Raise e.
Proof.
  intros Hk Hv. unfold urlencode. cbn [mapM fst snd].
  rewrite Hk, Hv. reflexivity.
Qed.

Lemma quote_plus_sd_name : quote_plus u"sd_name" u"," = Ok u"sd_name".
Proof. reflexivity. Qed.

Lemma quote_plus_bands_key : quote_plus u"bands" u"," = Ok u"bands".
Proof. reflexivity. Qed.

(** *** The four cases of [SdsParams] *)

Lemma SdsParams_falsy (url : str) (name : option str) (bands : option (list Z)) :
  truthy name = false -> truthy bands = false ->
  SdsParams url name bands = Ok url.
Proof.
  destruct name as [[|c n]|]; destruct bands as [[|b bs]|];
    simpl; intros; (discriminate || reflexivity).
Qed.

Lemma SdsParams_name_only (url n q : str) (bands : option (list Z)) :
  n <> [] -> truthy bands = false -> quote_plus n u"," = Ok q ->
  SdsParams url (Some n) bands = Ok (u"vrt:///vsicurl/" ++ url ++ u"?sd_name=" ++ q).
Proof.
  intros Hn Hb Hq. destruct n as [|c n]; [congruence|].
  assert (E : SdsParams url (Some (c :: n)) bands
              = (params <- urlencode [(u"sd_name", c :: n)] u"," ;;
                 Ok (u"vrt:///vsicurl/" ++ url ++ u"?" ++ params))).
  { destruct bands as [[|b bs]|]; (discriminate || reflexivity). }
  rewrite E, (urlencode_one _ _ _ _ _ quote_plus_sd_name Hq). reflexivity.
Qed.

Lemma SdsParams_bands_only (url : str) (name : option str) (b : Z) (bs : list Z) :
  truthy name = false ->
  SdsParams url name (Some (b :: bs))
  = Ok (u"vrt:///vsicurl/" ++ url ++ u"?bands="
          ++ join u"," (List.map str_of_int (b :: bs))).
Proof.
  intros Hn.
  assert (E : SdsParams url name (Some (b :: bs))
              = (params <- urlencode
                             [(u"bands", join u"," (List.map str_of_int (b :: bs)))]
                             u"," ;;
                 Ok (u"vrt:///vsicurl/" ++ url ++ u"?" ++ params))).
  { destruct name as [[|c n]|]; (discriminate || reflexivity). }
  rewrite E, (urlencode_one _ _ _ _ _ quote_plus_bands_key (quote_plus_bands _)).
  reflexivity.
Qed.

Lemma SdsParams_both (url n q : str) (b : Z) (bs : list Z) :
  n <> [] -> quote_plus n u"," = Ok q ->
  SdsParams url (Some n) (Some (b :: bs))
  = Ok (u"vrt:///vsicurl/" ++ url ++ u"?sd_name=" ++ q ++ u"&bands="
          ++ join u"," (List.map str_of_int (b :: bs))).
Proof.
  intros Hn Hq. destruct n as [|c n]; [congruence|].
  assert (E : SdsParams url (Some (c :: n)) (Some (b :: bs))
              = (params <- urlencode
                             [(u"sd_name", c :: n);
                              (u"bands", join u"," (List.map str_of_int (b :: bs)))]
                             u"," ;;
                 Ok (u"vrt:///vsicurl/" ++ url ++ u"?" ++ params))).
  { reflexivity. }
  rewrite E.
  rewrite (urlencode_two _ _ _ _ _ _ _ _ _ quote_plus_sd_name Hq
             quote_plus_bands_key (quote_plus_bands _)).
  reflexivity.
Qed.

Lemma SdsParams_raise (url n : str) (bands : option (list Z)) (e : exn) :
  n <> [] -> quote_plus n u"," = Raise e ->
  SdsParams url (Some n) bands = Raise e.
Proof.
  intros Hn Hq. destruct n as [|c n]; [congruence|].
  destruct bands as [[|b bs]|]; unfold SdsParams;
    cbn [truthy dict_set dict_truthy str_eqb];
    try (rewrite (urlencode_raise_value _ _ _ _ _ _ quote_plus_sd_name Hq);
         reflexivity).
  change (str_eqb u"sd_name" u"bands") with false. cbn iota.
  cbn [dict_truthy].
  rewrite (urlencode_raise_value _ _ _ _ _ _ quote_plus_sd_name Hq). reflexivity.
Qed.

(** *** The three rewriting bodies *)

Lemma post_init_input (self : CustomReader) :
  result_map input (CustomReader_attrs_post_init self)
  = SdsParams (input self) (subdataset_name self) (subdataset_bands self).
Proof.
  destruct self as [i [[|c n]|] [[|b bs]|]];
    unfold CustomReader_attrs_post_init, SdsParams; cbn -[urlencode];
    try reflexivity;
    match goal with |- context [urlencode ?d ?s] => destruct (urlencode d s) end;
    reflexivity.
Qed.

Lemma ItemAssetIdParams_resolved (get_stac_item : StacLookup)
    (collection_id item_id asset_id : str) (item : Item) (asset_info : Asset)
    (name : option str) (bands : option (list Z)) :
  get_stac_item collection_id item_id = Ok item ->
  dict_get (assets item) asset_id = Some asset_info ->
  ItemAssetIdParams get_stac_item collection_id item_id asset_id name bands
  = SdsParams (or_str (get_absolute_href asset_info) (href asset_info)) name bands.
Proof.
  intros Hitem Hasset. unfold ItemAssetIdParams, dict_getitem.
  rewrite Hitem. cbn [bind]. rewrite Hasset. reflexivity.
Qed.

(** *** The builder always returns *)


(** *** When the encoding succeeds *)


Lemma utf8_encode_char_Raise (c : char) (e : exn) :
  utf8_encode_char c = Raise e -> e = UnicodeEncodeError /\ is_surrogate c = true.
Proof.
  unfold utf8_encode_char.
  destruct (c <? 0x80), (c <? 0x800), (c <? 0x10000), (is_surrogate c);
    intros [= <-] || discriminate; now split.
Qed.


Lemma utf8_encode_Raise (s : str) (e : exn) :
  utf8_encode s = Raise e ->
  e = UnicodeEncodeError /\ Exists (fun c => is_surrogate c = true) s.
Proof.
  unfold utf8_encode.
  assert (E : mapM utf8_encode_char s = Raise e ->
              e = UnicodeEncodeError /\ Exists (fun c => is_surrogate c = true) s).
  { induction s as [|c s IH]; cbn [mapM]; [discriminate|].
    destruct (utf8_encode_char c) as [bs|e'] eqn:Hc; cbn [bind].
    - destruct (mapM utf8_encode_char s) as [chunks|e'']; cbn [bind];
        [discriminate|].
      intros [= ->]. destruct (IH eq_refl) as [-> Hex].
      split; [reflexivity | now apply Exists_cons_tl].
    - intros [= ->]. destruct (utf8_encode_char_Raise _ _ Hc) as [-> Hsur].
      split; [reflexivity | now apply Exists_cons_hd]. }
  destruct (mapM utf8_encode_char s) as [chunks|e']; cbn [bind]; [discriminate|].
  intros [= ->]. now apply E.
Qed.



Lemma quote_plus_Raise (s safe : str) (e : exn) :
  quote_plus s safe = Raise e ->
  e = UnicodeEncodeError /\ Exists (fun c => is_surrogate c = true) s.
Proof.
  assert (Q : forall safe', quote s safe' = Raise e ->
              e = UnicodeEncodeError /\ Exists (fun c => is_surrogate c = true) s).
  { intros safe'. unfold quote. destruct s as [|c s]; [discriminate|].
    destruct (utf8_encode (c :: s)) as [bs|e'] eqn:Hbs; cbn [bind];
      [discriminate|].
    intros [= ->]. now apply utf8_encode_Raise. }
  unfold quote_plus. destruct (negb (contains 0x20 s)); [apply Q|].
  destruct (quote s (safe ++ [0x20])) as [q|e'] eqn:Hq; cbn [bind];
    [discriminate|].
  intros [= ->]. now apply (Q _ Hq).
Qed.


(** [SdsParams] raises exactly on a non-empty name with a lone surrogate. *)
Lemma SdsParams_Raise (url : str) (name : option str) (bands : option (list Z))
    (e : exn) :
  SdsParams url name bands = Raise e ->
  e = UnicodeEncodeError
  /\ exists n, name = Some n /\ Exists (fun c => is_surrogate c = true) n.
Proof.
  intros H.
  destruct name as [[|c n]|].
  - destruct bands as [[|b bs]|];
      [ rewrite SdsParams_falsy in H by reflexivity
      | rewrite SdsParams_bands_only in H by reflexivity
      | rewrite SdsParams_falsy in H by reflexivity ]; discriminate H.
  - destruct (quote_plus (c :: n) u",") as [q|e'] eqn:Hq.
    + destruct bands as [[|b bs]|];
        [ rewrite (SdsParams_name_only _ _ q) in H
        | rewrite (SdsParams_both _ _ q) in H
        | rewrite (SdsParams_name_only _ _ q) in H ];
        try discriminate H; trivial; discriminate.
    + rewrite (SdsParams_raise _ _ _ e') in H by (discriminate || exact Hq).
      injection H as <-.
      destruct (quote_plus_Raise _ _ _ Hq) as [-> Hex].
      split; [reflexivity|]. exists (c :: n). now split.
  - destruct bands as [[|b bs]|];
      [ rewrite SdsParams_falsy in H by reflexivity
      | rewrite SdsParams_bands_only in H by reflexivity
      | rewrite SdsParams_falsy in H by reflexivity ]; discriminate H.
Qed.

(** Conversely, the encoder accepts no lone surrogate. *)
Lemma utf8_encode_char_Ok_inv (c : char) (bs : bytes) :
  utf8_encode_char c = Ok bs -> is_surrogate c = false.
Proof.
  unfold utf8_encode_char, is_surrogate.
  destruct (N.ltb_spec c 0x80) as [H1|H1].
  { intros _. apply andb_false_iff. left. apply N.leb_gt. lia. }
  destruct (N.ltb_spec c 0x800) as [H2|H2].
  { intros _. apply andb_false_iff. left. apply N.leb_gt. lia. }
  destruct (N.ltb_spec c 0x10000) as [H3|H3].
  { destruct ((0xD800 <=? c) && (c <=? 0xDFFF)); [discriminate | reflexivity]. }
  intros _. apply andb_false_iff. right. apply N.leb_gt. lia.
Qed.

Lemma utf8_encode_Ok_inv (s : str) (bs : bytes) :
  utf8_encode s = Ok bs -> no_surrogate s.
Proof.
  unfold utf8_encode, no_surrogate.
  destruct (mapM utf8_encode_char s) as [chunks|e] eqn:E; cbn [bind];
    [|discriminate].
  intros _. revert chunks E.
  induction s as [|c s IH]; cbn [mapM]; intros chunks E; [constructor|].
  destruct (utf8_encode_char c) as [b|e] eqn:Hc; cbn [bind] in E; [|discriminate].
  destruct (mapM utf8_encode_char s) as [rest|e]; cbn [bind] in E; [|discriminate].
  constructor; [now apply utf8_encode_char_Ok_inv with b | now apply IH with rest].
Qed.

Lemma no_surrogate_not_Exists (s : str) :
  no_surrogate s -> ~ Exists (fun c => is_surrogate c = true) s.
Proof.
  unfold no_surrogate. intros H Hex. apply Exists_exists in Hex.
  destruct Hex as (c & Hin & Hc).
  rewrite Forall_forall in H. specialize (H c Hin). congruence.
Qed.

Lemma quote_plus_surrogate_raises (s safe : str) :
  Exists (fun c => is_surrogate c = true) s ->
  quote_plus s safe = Raise UnicodeEncodeError.
Proof.
  intros Hex.
  assert (Q : forall safe', quote s safe' = Raise UnicodeEncodeError).
  { intros safe'. unfold quote. destruct s as [|c s]; [inversion Hex|].
    destruct (utf8_encode (c :: s)) as [bs|e] eqn:E; cbn [bind].
    - apply utf8_encode_Ok_inv in E.
      now destruct (no_surrogate_not_Exists _ E).
    - now destruct (utf8_encode_Raise _ _ E) as [-> _]. }
  unfold quote_plus. destruct (negb (contains 0x20 s)); [apply Q|].
  now rewrite Q.
Qed.

(** Outside what a query string delivers: a non-empty name with a lone
    surrogate makes the resolver raise, whatever the base and the bands. *)
Lemma SdsParams_surrogate_raises (url n : str) (bands : option (list Z)) :
  Exists (fun c => is_surrogate c = true) n ->
  SdsParams url (Some n) bands = Raise UnicodeEncodeError.
Proof.
  intros Hex. apply SdsParams_raise.
  - intros ->. inversion Hex.
  - now apply quote_plus_surrogate_raises.
Qed.

(** ** The properties of the specification *)

(** C1: for the base locator "s3://bucket/a.tif", the name "sd1" and the
    bands [1,2], the locator resolver [SdsParams] returns exactly
    "vrt:///vsicurl/s3://bucket/a.tif?sd_name=sd1&bands=1,2": both prefixes
    verbatim, [sd_name] before [bands], bands joined by commas. *)
Theorem SdsParams_sd1_bands_1_2 :
  SdsParams u"s3://bucket/a.tif" (Some u"sd1") (Some [1; 2]%Z)
  = Ok u"vrt:///vsicurl/s3://bucket/a.tif?sd_name=sd1&bands=1,2".
Proof. vm_compute. reflexivity. Qed.

(** C2: for every base locator, when the name and the bands are both absent
    the resolver returns the base unchanged and the reader-options builder
    returns the empty mapping. *)
Theorem absent_selector_unchanged (url : str) :
  SdsParams url None None = Ok url
  /\ ReaderParams_init None None = Ok {| reader_options := [] |}.
Proof. split; reflexivity. Qed.

(** C3: for every non-empty band list the rendered query parameter is
    [bands=] followed by the bands as decimal strings, in the caller's order,
    joined by literal commas; it reaches the final locator as it is, with no
    percent sign in it (commas are not encoded), whether the name is absent,
    empty, or present.  [CustomReader]'s post-init renders the same locator.
    For bands [4,3,2] the parameter is [bands=4,3,2]. *)
Theorem bands_rendered_comma_joined (url : str) (b : Z) (bs : list Z) :
  let rendered := u"bands=" ++ join u"," (List.map str_of_int (b :: bs)) in
  SdsParams url None (Some (b :: bs)) = Ok (u"vrt:///vsicurl/" ++ url ++ u"?" ++ rendered)
  /\ SdsParams url (Some []) (Some (b :: bs))
     = Ok (u"vrt:///vsicurl/" ++ url ++ u"?" ++ rendered)
  /\ (forall n q, n <> [] -> quote_plus n u"," = Ok q ->
        SdsParams url (Some n) (Some (b :: bs))
        = Ok (u"vrt:///vsicurl/" ++ url ++ u"?sd_name=" ++ q ++ u"&" ++ rendered))
  /\ (forall name,
        result_map input
          (CustomReader_attrs_post_init
             {| input := url; subdataset_name := name;
                subdataset_bands := Some (b :: bs) |})
        = SdsParams url name (Some (b :: bs)))
  /\ contains 0x25 rendered = false
  /\ u"bands=" ++ join u"," (List.map str_of_int [4; 3; 2]%Z) = u"bands=4,3,2".
Proof.
  cbv zeta. repeat split.
  - apply SdsParams_bands_only. reflexivity.
  - apply SdsParams_bands_only. reflexivity.
  - intros n q Hn Hq. now apply SdsParams_both.
  - intros name. apply (post_init_input (mkCustomReader url name (Some (b :: bs)))).
  - unfold contains. rewrite existsb_app.
    apply orb_false_iff. split; [reflexivity|].
    apply (contains_unquoted 0x25 _ unquoted_not_percent), bands_unquoted.
Qed.

Lemma bands_rendered_comma_joined_witness :
  SdsParams u"s3://bucket/a.tif" (Some u"sd 1") (Some [4; 3; 2]%Z)
  = Ok u"vrt:///vsicurl/s3://bucket/a.tif?sd_name=sd+1&bands=4,3,2".
Proof.
  destruct (bands_rendered_comma_joined u"s3://bucket/a.tif" 4%Z [3; 2]%Z)
    as (_ & _ & H & _).
  apply (H u"sd 1" u"sd+1"); [discriminate | reflexivity].
Defined.

(** C4: for every base locator, with the name "x" and no bands (absent, or
    an empty list) the resolver returns exactly
    [vrt:///vsicurl/{base}?sd_name=x]: the query string holds no bands
    parameter. *)
Theorem name_x_without_bands (url : str) :
  SdsParams url (Some u"x") None = Ok (u"vrt:///vsicurl/" ++ url ++ u"?sd_name=x")
  /\ SdsParams url (Some u"x") (Some [])
     = Ok (u"vrt:///vsicurl/" ++ url ++ u"?sd_name=x").
Proof.
  split; apply SdsParams_name_only; (discriminate || reflexivity).
Qed.

(** C5: for no name and the bands [5] the reader-options builder returns
    exactly the mapping with the single key [subdataset_bands] bound to the
    integer list [5]; in general a non-empty band list is stored under
    [subdataset_bands] as the same list of integers, in the same order, and
    [subdataset_name] is set only for a non-empty name. *)
Theorem ReaderParams_bands_typed_list :
  ReaderParams_init None (Some [5%Z])
  = Ok {| reader_options := [(u"subdataset_bands", VInts [5%Z])] |}
  /\ (forall (b : Z) (bs : list Z),
        ReaderParams_init None (Some (b :: bs))
        = Ok {| reader_options := [(u"subdataset_bands", VInts (b :: bs))] |}
        /\ ReaderParams_init (Some []) (Some (b :: bs))
           = Ok {| reader_options := [(u"subdataset_bands", VInts (b :: bs))] |})
  /\ (forall (c : char) (n : str) (b : Z) (bs : list Z),
        ReaderParams_init (Some (c :: n)) (Some (b :: bs))
        = Ok {| reader_options := [(u"subdataset_name", VStr (c :: n));
                                   (u"subdataset_bands", VInts (b :: bs))] |})
  /\ (forall (name : option str) (b : Z) (bs : list Z),
        exists p, ReaderParams_init name (Some (b :: bs)) = Ok p
                  /\ dict_get (reader_options p) u"subdataset_bands"
                     = Some (VInts (b :: bs))).
Proof.
  repeat split.
  intros name b bs. destruct name as [[|c n]|]; eexists; split; reflexivity.
Qed.

(** C6: for every asset the item lookup resolves, asset href resolution
    returns the asset's absolute href when one is present and otherwise the
    asset's plain href, unchanged.  [get_absolute_href()] gives [None] or a
    non-empty absolute href, never the empty string; on such assets the
    [or] of line 340 always lets the absolute href take priority. *)
Theorem asset_href_resolution (get_stac_item : StacLookup)
    (collection_id item_id asset_id : str) (item : Item) (asset_info : Asset) :
  get_stac_item collection_id item_id = Ok item ->
  dict_get (assets item) asset_id = Some asset_info ->
  absolute_href_well_formed asset_info ->
  ItemAssetIdParams get_stac_item collection_id item_id asset_id None None
  = Ok (match get_absolute_href asset_info with
        | Some absolute_href => absolute_href
        | None => href asset_info
        end).
Proof.
  intros Hitem Hasset Hwf.
  rewrite (ItemAssetIdParams_resolved _ _ _ _ _ _ None None Hitem Hasset).
  rewrite SdsParams_falsy by reflexivity.
  unfold absolute_href_well_formed in Hwf.
  destruct (get_absolute_href asset_info) as [[|c s]|]; cbn [or_str];
    [congruence | reflexivity | reflexivity].
Qed.

Lemma asset_href_resolution_witness :
  ItemAssetIdParams
    (fun _ _ => Ok {| assets := [(u"data", {| href := u"./a.tif";
                                              get_absolute_href := Some u"https://x/a.tif" |})] |})
    u"c" u"i" u"data" None None = Ok u"https://x/a.tif"
  /\ ItemAssetIdParams
       (fun _ _ => Ok {| assets := [(u"data", {| href := u"./a.tif";
                                                 get_absolute_href := None |})] |})
       u"c" u"i" u"data" None None = Ok u"./a.tif".
Proof.
  split.
  - apply (asset_href_resolution
             (fun _ _ => Ok {| assets := [(u"data", {| href := u"./a.tif";
                                 get_absolute_href := Some u"https://x/a.tif" |})] |})
             u"c" u"i" u"data" _ _ eq_refl eq_refl).
    discriminate.
  - apply (asset_href_resolution
             (fun _ _ => Ok {| assets := [(u"data", {| href := u"./a.tif";
                                 get_absolute_href := None |})] |})
             u"c" u"i" u"data" _ _ eq_refl eq_refl).
    discriminate.
Defined.

(** C7: the three copies of the rewriting logic agree.  For every base
    locator, optional name and optional band list, [CustomReader]'s
    post-init leaves in [input] what [SdsParams] returns, and
    [ItemAssetIdParams], once its asset has resolved to that base, returns
    the same; where one raises, all raise the same exception. *)
Theorem three_rewrites_agree (url : str) (name : option str)
    (bands : option (list Z)) (get_stac_item : StacLookup)
    (collection_id item_id asset_id : str) (item : Item) (asset_info : Asset) :
  get_stac_item collection_id item_id = Ok item ->
  dict_get (assets item) asset_id = Some asset_info ->
  or_str (get_absolute_href asset_info) (href asset_info) = url ->
  result_map input
    (CustomReader_attrs_post_init
       {| input := url; subdataset_name := name; subdataset_bands := bands |})
  = SdsParams url name bands
  /\ ItemAssetIdParams get_stac_item collection_id item_id asset_id name bands
     = SdsParams url name bands.
Proof.
  intros Hitem Hasset Hurl. split.
  - apply (post_init_input (mkCustomReader url name bands)).
  - rewrite (ItemAssetIdParams_resolved _ _ _ _ _ _ name bands Hitem Hasset).
    now rewrite Hurl.
Qed.

Lemma three_rewrites_agree_witness :
  result_map input
    (CustomReader_attrs_post_init
       {| input := u"s3://bucket/a.tif"; subdataset_name := Some u"sd1";
          subdataset_bands := Some [1; 2]%Z |})
  = SdsParams u"s3://bucket/a.tif" (Some u"sd1") (Some [1; 2]%Z)
  /\ ItemAssetIdParams
       (fun _ _ => Ok {| assets := [(u"data", {| href := u"s3://bucket/a.tif";
                                                 get_absolute_href := None |})] |})
       u"c" u"i" u"data" (Some u"sd1") (Some [1; 2]%Z)
     = SdsParams u"s3://bucket/a.tif" (Some u"sd1") (Some [1; 2]%Z).
Proof.
  apply (three_rewrites_agree u"s3://bucket/a.tif" (Some u"sd1") (Some [1; 2]%Z)
           (fun _ _ => Ok {| assets := [(u"data", {| href := u"s3://bucket/a.tif";
                                                     get_absolute_href := None |})] |})
           u"c" u"i" u"data" _ _ eq_refl eq_refl eq_refl).
Defined.

(** C9: an empty name and an empty band list are treated exactly like an
    absent selector.  For every base locator the resolver returns the base
    unchanged, the builder returns the empty mapping and [CustomReader]
    keeps its input; and, one field at a time, an empty value gives the
    same result as an absent one whatever the other field holds. *)
Theorem empty_selector_like_absent (url : str) :
  SdsParams url (Some []) (Some []) = Ok url
  /\ ReaderParams_init (Some []) (Some []) = Ok {| reader_options := [] |}
  /\ result_map input
       (CustomReader_attrs_post_init
          {| input := url; subdataset_name := Some []; subdataset_bands := Some [] |})
     = Ok url
  /\ (forall bands, SdsParams url (Some []) bands = SdsParams url None bands)
  /\ (forall name, SdsParams url name (Some []) = SdsParams url name None)
  /\ (forall bands, ReaderParams_init (Some []) bands = ReaderParams_init None bands)
  /\ (forall name, ReaderParams_init name (Some []) = ReaderParams_init name None).
Proof.
  repeat split;
    try (intros [[|b bs]|]; reflexivity).
Qed.



(** ** Further properties of the code *)

Example landing_crumbs_root :
  landing_crumbs ascii_capitalize u"http://host/" u"/"
  = [ {| crumb_url := u"http://host"; crumb_part := u"Home" |};
      {| crumb_url := u"http://host"; crumb_part := u"Home" |} ].
Proof. vm_compute. reflexivity. Qed.

Example landing_crumbs_nested :
  landing_crumbs ascii_capitalize u"http://host/" u"/searches//builder/"
  = [ {| crumb_url := u"http://host"; crumb_part := u"Home" |};
      {| crumb_url := u"http://host/searches"; crumb_part := u"Searches" |};
      {| crumb_url := u"http://host/searches"; crumb_part := u"Home" |};
      {| crumb_url := u"http://host/searches/builder"; crumb_part := u"Builder" |};
      {| crumb_url := u"http://host/searches/builder"; crumb_part := u"Home" |} ].
Proof. vm_compute. reflexivity. Qed.

(** *** [rstrip] and [split] *)

Lemma rstrip_char_app_keep (c : char) (s t : str) :
  rstrip_char c t <> [] -> rstrip_char c (s ++ t) = s ++ rstrip_char c t.
Proof.
  intros Ht. induction s as [|x s IH]; [reflexivity|].
  cbn [app rstrip_char]. rewrite IH.
  destruct (s ++ rstrip_char c t) eqn:E; [|reflexivity].
  apply app_eq_nil in E. destruct E as [_ E]. contradiction.
Qed.

Lemma rstrip_char_app_sep (c : char) (s : str) :
  rstrip_char c (s ++ [c]) = rstrip_char c s.
Proof.
  induction s as [|x s IH].
  - cbn. unfold char_eqb. now rewrite N.eqb_refl.
  - cbn [app rstrip_char]. now rewrite IH.
Qed.

Lemma rstrip_char_free (c : char) (t : str) :
  Forall (differs c) t -> rstrip_char c t = t.
Proof.
  induction 1 as [|x t Hx Ht IH]; [reflexivity|].
  cbn [rstrip_char]. rewrite IH. destruct t; [|reflexivity].
  unfold differs in Hx. now rewrite Hx.
Qed.

Lemma rstrip_char_idem (c : char) (s : str) :
  rstrip_char c (rstrip_char c s) = rstrip_char c s.
Proof.
  induction s as [|x s IH]; [reflexivity|].
  cbn [rstrip_char]. destruct (rstrip_char c s) as [|y r] eqn:E.
  - destruct (char_eqb x c) eqn:Hx; [reflexivity|].
    cbn [rstrip_char]. now rewrite Hx.
  - change (rstrip_char c (x :: y :: r))
      with (match rstrip_char c (y :: r) with
            | [] => if char_eqb x c then [] else [x]
            | rest' => x :: rest'
            end).
    now rewrite IH.
Qed.

Lemma rstrip_char_length (c : char) (s : str) :
  (List.length (rstrip_char c s) <= List.length s)%nat.
Proof.
  induction s as [|x s IH]; [reflexivity|].
  cbn [rstrip_char]. destruct (rstrip_char c s) as [|y r].
  - destruct (char_eqb x c); cbn; lia.
  - cbn in *. lia.
Qed.

(** What [rstrip] returns does not end with the stripped character. *)
Lemma rstrip_char_no_trailing (c : char) (s t : str) :
  rstrip_char c s <> t ++ [c].
Proof.
  intros E.
  pose proof (rstrip_char_idem c s) as Hidem.
  rewrite E, rstrip_char_app_sep in Hidem.
  pose proof (rstrip_char_length c t) as Hlen.
  rewrite Hidem, length_app in Hlen. cbn in Hlen. lia.
Qed.

Lemma split_char_nonempty (sep : char) (s : str) : split_char sep s <> [].
Proof.
  destruct s as [|c s]; [discriminate|].
  cbn [split_char]. destruct (char_eqb c sep); [discriminate|].
  destruct (split_char sep s); discriminate.
Qed.

Lemma split_char_free (sep : char) (s : str) :
  Forall (Forall (differs sep)) (split_char sep s).
Proof.
  induction s as [|c s IH]; [repeat constructor|].
  cbn [split_char]. destruct (char_eqb c sep) eqn:Hc.
  - constructor; [constructor | exact IH].
  - destruct (split_char sep s) as [|seg segs].
    + repeat constructor. exact Hc.
    + inversion IH as [|? ? Hseg Hsegs]; subst.
      constructor; [constructor; assumption | assumption].
Qed.

Lemma split_char_length (sep : char) (s : str) :
  List.length (split_char sep s)
  = S (List.length (List.filter (fun c => char_eqb c sep) s)).
Proof.
  induction s as [|c s IH]; [reflexivity|].
  cbn [split_char List.filter]. destruct (char_eqb c sep).
  - cbn [List.length]. now rewrite IH.
  - destruct (split_char sep s) as [|seg segs]; [discriminate IH|].
    cbn [List.length] in *. exact IH.
Qed.

(** [sep.join(s.split(sep)) == s] *)
Lemma join_split_char (sep : char) (s : str) :
  join [sep] (split_char sep s) = s.
Proof.
  induction s as [|c s IH]; [reflexivity|].
  cbn [split_char]. destruct (char_eqb c sep) eqn:Hc.
  - apply N.eqb_eq in Hc. subst c.
    pose proof (split_char_nonempty sep s) as Hne.
    destruct (split_char sep s) as [|seg segs]; [contradiction|].
    change (join [sep] ([] :: seg :: segs))
      with (sep :: join [sep] (seg :: segs)).
    now rewrite IH.
  - pose proof (split_char_nonempty sep s) as Hne.
    destruct (split_char sep s) as [|seg segs]; [contradiction|].
    destruct segs as [|seg' segs].
    + cbn [join] in *. now rewrite IH.
    + change (join [sep] ((c :: seg) :: seg' :: segs))
        with (c :: join [sep] (seg :: seg' :: segs)).
      now rewrite IH.
Qed.

(** [sep.join(l).split(sep) == l] for a non-empty [l] of strings without [sep]. *)
Lemma split_char_join (sep : char) (l : list str) :
  l <> [] -> Forall (Forall (differs sep)) l ->
  split_char sep (join [sep] l) = l.
Proof.
  intros Hne Hl. induction Hl as [|x l Hx Hl IH]; [contradiction|].
  destruct l as [|y l].
  - clear IH Hne Hl. cbn [join].
    induction Hx as [|c x Hc Hx IHx]; [reflexivity|].
    cbn [split_char]. unfold differs in Hc. rewrite Hc, IHx. reflexivity.
  - specialize (IH ltac:(discriminate)).
    change (join [sep] (x :: y :: l)) with (x ++ sep :: join [sep] (y :: l)).
    clear Hne Hl.
    induction Hx as [|c x Hc Hx IHx].
    + cbn [app split_char]. unfold char_eqb. rewrite N.eqb_refl.
      now rewrite IH.
    + cbn [app split_char]. unfold differs in Hc. rewrite Hc, IHx. reflexivity.
Qed.

Lemma rstrip_char_cons_free (c x y : char) (t : str) :
  Forall (differs c) (y :: t) -> rstrip_char c (x :: y :: t) = x :: y :: t.
Proof.
  intros H.
  change (rstrip_char c (x :: y :: t))
    with (match rstrip_char c (y :: t) with
          | [] => if char_eqb x c then [] else [x]
          | rest' => x :: rest'
          end).
  now rewrite (rstrip_char_free _ _ H).
Qed.

(** *** The breadcrumbs loop *)

Lemma collapsed_snoc (base : str) (pre : list str) (seg : str) :
  collapsed base (pre ++ [seg])
  = if str_eqb seg [] then collapsed base pre
    else collapsed base pre ++ u"/" ++ seg.
Proof.
  unfold collapsed. rewrite filter_app. cbn [List.filter].
  destruct (str_eqb seg []); cbn [negb].
  - now rewrite app_nil_r.
  - rewrite map_app, concat_app. cbn [List.map List.concat].
    now rewrite app_nil_r, app_assoc.
Qed.

Lemma str_eqb_nil (s : str) : str_eqb s [] = true <-> s = [].
Proof. destruct s; cbn; split; (reflexivity || discriminate). Qed.

(** One turn of the loop keeps [crumbpath], once stripped, equal to the base
    followed by the non-empty segments seen so far. *)
Lemma crumb_step_collapsed (capitalize : str -> str) (base crumbpath : str)
    (acc : list Crumb) (pre : list str) (seg : str) :
  Forall (differs 0x2F) seg ->
  rstrip_char 0x2F crumbpath = collapsed base pre ->
  rstrip_char 0x2F (fst (crumb_step capitalize (crumbpath, acc) seg))
  = collapsed base (pre ++ [seg])
  /\ snd (crumb_step capitalize (crumbpath, acc) seg)
     = acc ++ [{| crumb_url := collapsed base (pre ++ [seg]);
                  crumb_part := capitalize (if str_eqb seg [] then u"Home" else seg) |}].
Proof.
  intros Hseg Hinv. unfold crumb_step. cbn [fst snd].
  assert (E : rstrip_char 0x2F (rstrip_char 0x2F crumbpath ++ u"/" ++ seg)
              = collapsed base (pre ++ [seg])).
  { rewrite collapsed_snoc. destruct seg as [|c seg].
    - cbn [str_eqb].
      change (u"/" ++ []) with [0x2F].
      now rewrite rstrip_char_app_sep, rstrip_char_idem.
    - cbn [str_eqb].
      rewrite rstrip_char_app_keep.
      + rewrite Hinv. f_equal.
        change (u"/" ++ c :: seg) with (0x2F :: c :: seg).
        now rewrite rstrip_char_cons_free.
      + change (u"/" ++ c :: seg) with (0x2F :: c :: seg).
        rewrite rstrip_char_cons_free by assumption. discriminate. }
  rewrite E. split; reflexivity.
Qed.

Lemma fold_crumb_step (capitalize : str -> str) (base : str) (segs : list str) :
  Forall (Forall (differs 0x2F)) segs ->
  forall (crumbpath : str) (acc : list Crumb) (pre : list str),
    rstrip_char 0x2F crumbpath = collapsed base pre ->
    snd (fold_left (crumb_step capitalize) segs (crumbpath, acc))
    = acc ++ crumbs_from capitalize base pre segs.
Proof.
  induction 1 as [|seg segs Hseg Hsegs IH]; intros crumbpath acc pre Hinv.
  - cbn. now rewrite app_nil_r.
  - cbn [fold_left crumbs_from].
    destruct (crumb_step_collapsed capitalize base crumbpath acc pre seg Hseg Hinv)
      as [Hfst Hsnd].
    destruct (crumb_step capitalize (crumbpath, acc) seg) as [crumbpath' acc'].
    cbn [fst snd] in Hfst, Hsnd. subst acc'.
    rewrite (IH crumbpath' _ (pre ++ [seg]) Hfst).
    now rewrite <- app_assoc.
Qed.

Lemma landing_crumbs_eq (capitalize : str -> str) (base_url urlpath : str) :
  landing_crumbs capitalize base_url urlpath
  = crumbs_from capitalize (rstrip_char 0x2F base_url) []
      (split_char 0x2F urlpath).
Proof.
  unfold landing_crumbs.
  rewrite (fold_crumb_step capitalize (rstrip_char 0x2F base_url) _
             (split_char_free 0x2F urlpath) _ [] []).
  - reflexivity.
  - unfold collapsed. cbn. now rewrite app_nil_r, rstrip_char_idem.
Qed.

Lemma crumbs_from_length (capitalize : str -> str) (base : str) (segs pre : list str) :
  List.length (crumbs_from capitalize base pre segs) = List.length segs.
Proof.
  revert pre. induction segs as [|seg segs IH]; intros pre; [reflexivity|].
  cbn [crumbs_from List.length]. now rewrite IH.
Qed.

Lemma crumbs_from_nth (capitalize : str -> str) (base : str) (segs : list str) :
  forall (pre : list str) (i : nat) (seg : str),
    nth_error segs i = Some seg ->
    nth_error (crumbs_from capitalize base pre segs) i
    = Some {| crumb_url := collapsed base (pre ++ firstn (S i) segs);
              crumb_part := capitalize (if str_eqb seg [] then u"Home" else seg) |}.
Proof.
  induction segs as [|s0 segs IH]; intros pre i seg Hnth.
  - destruct i; discriminate Hnth.
  - destruct i as [|i].
    + injection Hnth as <-. reflexivity.
    + cbn [nth_error crumbs_from] in *.
      rewrite (IH (pre ++ [s0]) i seg Hnth).
      now rewrite <- app_assoc.
Qed.

Lemma collapsed_no_trailing (base : str) (segs : list str) :
  rstrip_char 0x2F base = base ->
  Forall (Forall (differs 0x2F)) segs ->
  rstrip_char 0x2F (collapsed base segs) = collapsed base segs.
Proof.
  intros Hbase Hsegs.
  induction segs as [|seg segs IH] using rev_ind.
  - unfold collapsed. cbn. now rewrite app_nil_r.
  - apply Forall_app in Hsegs. destruct Hsegs as [Hsegs Hseg].
    inversion Hseg as [|? ? Hs _]; subst.
    rewrite collapsed_snoc. destruct seg as [|c seg]; cbn [str_eqb].
    + now apply IH.
    + change (u"/" ++ c :: seg) with (0x2F :: c :: seg).
      assert (E : rstrip_char 0x2F (0x2F :: c :: seg) = 0x2F :: c :: seg)
        by now apply rstrip_char_cons_free.
      rewrite rstrip_char_app_keep; rewrite E; [reflexivity | discriminate].
Qed.

(** *** Shape of the resolver's result *)

(** What the resolver puts before and after the base, given what it could
    encode: nothing for a selector that is not set. *)
Lemma SdsParams_affixes (name : option str) (bands : option (list Z)) (url loc : str) :
  SdsParams url name bands = Ok loc ->
  exists suffix,
    loc = (if truthy name || truthy bands then u"vrt:///vsicurl/" else []) ++ url ++ suffix
    /\ (truthy name || truthy bands = true -> exists params, suffix = u"?" ++ params)
    /\ (truthy name || truthy bands = false -> suffix = [])
    /\ forall url',
         SdsParams url' name bands
         = Ok ((if truthy name || truthy bands then u"vrt:///vsicurl/" else [])
               ++ url' ++ suffix).
Proof.
  intros H.
  destruct name as [[|c n]|].
  - destruct bands as [[|b bs]|].
    + rewrite SdsParams_falsy in H by reflexivity. injection H as <-.
      exists []. repeat split; try discriminate.
      * cbn. now rewrite app_nil_r.
      * intros url'. rewrite SdsParams_falsy by reflexivity. cbn. now rewrite app_nil_r.
    + rewrite SdsParams_bands_only in H by reflexivity. injection H as <-.
      exists (u"?bands=" ++ join u"," (List.map str_of_int (b :: bs))).
      repeat split; try discriminate.
      * intros _. eexists. reflexivity.
      * intros url'. now rewrite SdsParams_bands_only by reflexivity.
    + rewrite SdsParams_falsy in H by reflexivity. injection H as <-.
      exists []. repeat split; try discriminate.
      * cbn. now rewrite app_nil_r.
      * intros url'. rewrite SdsParams_falsy by reflexivity. cbn. now rewrite app_nil_r.
  - destruct (quote_plus (c :: n) u",") as [q|e] eqn:Hq.
    + destruct bands as [[|b bs]|].
      * rewrite (SdsParams_name_only _ _ q) in H by (discriminate || reflexivity || exact Hq).
        injection H as <-. exists (u"?sd_name=" ++ q).
        repeat split; try discriminate.
        -- intros _. eexists. reflexivity.
        -- intros url'.
           now rewrite (SdsParams_name_only _ _ q) by (discriminate || reflexivity || exact Hq).
      * rewrite (SdsParams_both _ _ q) in H by (discriminate || exact Hq).
        injection H as <-.
        exists (u"?sd_name=" ++ q ++ u"&bands=" ++ join u"," (List.map str_of_int (b :: bs))).
        repeat split; try discriminate.
        -- intros _. eexists. reflexivity.
        -- intros url'. now rewrite (SdsParams_both _ _ q) by (discriminate || exact Hq).
      * rewrite (SdsParams_name_only _ _ q) in H by (discriminate || reflexivity || exact Hq).
        injection H as <-. exists (u"?sd_name=" ++ q).
        repeat split; try discriminate.
        -- intros _. eexists. reflexivity.
        -- intros url'.
           now rewrite (SdsParams_name_only _ _ q) by (discriminate || reflexivity || exact Hq).
    + rewrite (SdsParams_raise _ _ _ e) in H by (discriminate || exact Hq).
      discriminate H.
  - destruct bands as [[|b bs]|].
    + rewrite SdsParams_falsy in H by reflexivity. injection H as <-.
      exists []. repeat split; try discriminate.
      * cbn. now rewrite app_nil_r.
      * intros url'. rewrite SdsParams_falsy by reflexivity. cbn. now rewrite app_nil_r.
    + rewrite SdsParams_bands_only in H by reflexivity. injection H as <-.
      exists (u"?bands=" ++ join u"," (List.map str_of_int (b :: bs))).
      repeat split; try discriminate.
      * intros _. eexists. reflexivity.
      * intros url'. now rewrite SdsParams_bands_only by reflexivity.
    + rewrite SdsParams_falsy in H by reflexivity. injection H as <-.
      exists []. repeat split; try discriminate.
      * cbn. now rewrite app_nil_r.
      * intros url'. rewrite SdsParams_falsy by reflexivity. cbn. now rewrite app_nil_r.
Qed.

(** ** Further properties: statements *)

(** X1: the resolver rewrites exactly when the selector is set.  With an
    empty or absent name and band list the result is the base itself; with a
    non-empty name or a non-empty band list the result is the base between
    the prefix [vrt:///vsicurl/] and a query string, and never the base
    unchanged. *)
Theorem resolver_rewrites_iff_selector_set (url : str) (name : option str)
    (bands : option (list Z)) (loc : str) :
  SdsParams url name bands = Ok loc ->
  (truthy name || truthy bands = false -> loc = url)
  /\ (truthy name || truthy bands = true ->
      loc <> url
      /\ exists params, loc = u"vrt:///vsicurl/" ++ url ++ u"?" ++ params).
Proof.
  intros H. destruct (SdsParams_affixes _ _ _ _ H) as (suffix & Hloc & Hset & Hunset & _).
  split.
  - intros Hsel. rewrite Hsel in Hloc. rewrite (Hunset Hsel) in Hloc.
    cbn in Hloc. now rewrite app_nil_r in Hloc.
  - intros Hsel. rewrite Hsel in Hloc. destruct (Hset Hsel) as [params ->].
    split; [|now exists params].
    intros E. apply (f_equal (@List.length N)) in E. rewrite Hloc in E.
    rewrite !length_app in E. cbn in E. lia.
Qed.

Lemma resolver_rewrites_iff_selector_set_witness :
  u"vrt:///vsicurl/s3://bucket/a.tif?bands=7" <> u"s3://bucket/a.tif".
Proof.
  destruct (resolver_rewrites_iff_selector_set u"s3://bucket/a.tif" None
              (Some [7%Z]) u"vrt:///vsicurl/s3://bucket/a.tif?bands=7" eq_refl)
    as [_ H].
  exact (proj1 (H eq_refl)).
Defined.

(** X2: the resolver never looks into the base.  Whatever it returns for one
    base is that base between a prefix and a suffix which depend on the
    selector only, so every other base, well-formed or not, with its own
    query string or already rewritten, comes back between the same two. *)
Theorem resolver_base_verbatim (url : str) (name : option str)
    (bands : option (list Z)) (loc : str) :
  SdsParams url name bands = Ok loc ->
  exists prefix suffix,
    loc = prefix ++ url ++ suffix
    /\ forall url', SdsParams url' name bands = Ok (prefix ++ url' ++ suffix).
Proof.
  intros H. destruct (SdsParams_affixes _ _ _ _ H) as (suffix & Hloc & _ & _ & Hall).
  eexists. exists suffix. split; [exact Hloc | exact Hall].
Qed.

Lemma resolver_base_verbatim_witness :
  exists prefix suffix,
    u"vrt:///vsicurl/a.tif?x=1?sd_name=b" = prefix ++ u"a.tif?x=1" ++ suffix
    /\ forall url', SdsParams url' (Some u"b") None = Ok (prefix ++ url' ++ suffix).
Proof.
  apply (resolver_base_verbatim u"a.tif?x=1" (Some u"b") None
           u"vrt:///vsicurl/a.tif?x=1?sd_name=b").
  reflexivity.
Defined.

(** X3: [ItemAssetIdParams] fails before it looks at the selector.  An
    error of the item lookup is passed on as it is, and an asset id the item
    does not have is a [KeyError], whatever the name and the bands are. *)
Theorem ItemAssetIdParams_lookup_errors (get_stac_item : StacLookup)
    (collection_id item_id asset_id : str) (name : option str)
    (bands : option (list Z)) :
  (forall e, get_stac_item collection_id item_id = Raise e ->
     ItemAssetIdParams get_stac_item collection_id item_id asset_id name bands
     = Raise e)
  /\ (forall item, get_stac_item collection_id item_id = Ok item ->
        dict_get (assets item) asset_id = None ->
        ItemAssetIdParams get_stac_item collection_id item_id asset_id name bands
        = Raise KeyError).
Proof.
  split.
  - intros e He. unfold ItemAssetIdParams. now rewrite He.
  - intros item Hitem Hasset. unfold ItemAssetIdParams, dict_getitem.
    rewrite Hitem. cbn [bind]. now rewrite Hasset.
Qed.

Lemma ItemAssetIdParams_lookup_errors_witness :
  ItemAssetIdParams
    (fun _ _ => Ok {| assets := [(u"data", {| href := u"./a.tif";
                                              get_absolute_href := None |})] |})
    u"c" u"i" u"thumbnail" (Some [0xD800]) None
  = Raise KeyError.
Proof.
  destruct (ItemAssetIdParams_lookup_errors
              (fun _ _ => Ok {| assets := [(u"data", {| href := u"./a.tif";
                                              get_absolute_href := None |})] |})
              u"c" u"i" u"thumbnail" (Some [0xD800]) None) as [_ H].
  apply (H _ eq_refl). reflexivity.
Defined.

(** X4: what [ReaderParams] stores.  The options are empty exactly when
    neither field is set; [subdataset_name] is bound only to a non-empty
    name and [subdataset_bands] only to a non-empty band list; no other key
    is ever stored. *)
Theorem ReaderParams_options_invariant (name : option str)
    (bands : option (list Z)) (p : ReaderParams) :
  ReaderParams_init name bands = Ok p ->
  dict_truthy (reader_options p) = truthy name || truthy bands
  /\ dict_get (reader_options p) u"subdataset_name"
     = (if truthy name then option_map VStr name else None)
  /\ dict_get (reader_options p) u"subdataset_bands"
     = (if truthy bands then option_map VInts bands else None)
  /\ (forall k v, In (k, v) (reader_options p) ->
        k = u"subdataset_name" \/ k = u"subdataset_bands").
Proof.
  intros [= <-].
  destruct name as [[|c n]|]; destruct bands as [[|b bs]|];
    (repeat split; try reflexivity;
     intros k v Hin; cbn in Hin;
     repeat (destruct Hin as [Hin|Hin]; [injection Hin as <- _; auto|]);
     contradiction).
Qed.

Lemma ReaderParams_options_invariant_witness :
  dict_get [(u"subdataset_bands", VInts [5%Z])] u"subdataset_name" = None.
Proof.
  destruct (ReaderParams_options_invariant (Some []) (Some [5%Z])
              {| reader_options := [(u"subdataset_bands", VInts [5%Z])] |} eq_refl)
    as (_ & H & _).
  exact H.
Defined.

(** X6: the landing page shows one breadcrumb per segment of the path: one
    more than the path has slashes, hence at least one, also for the empty
    path. *)
Theorem landing_crumbs_count (capitalize : str -> str) (base_url urlpath : str) :
  List.length (landing_crumbs capitalize base_url urlpath)
  = S (List.length (List.filter (fun c => char_eqb c 0x2F) urlpath)).
Proof.
  rewrite landing_crumbs_eq, crumbs_from_length. apply split_char_length.
Qed.

(** X7: the breadcrumb of the i-th path segment.  Its url is the base url
    without trailing slashes followed by the non-empty segments up to the
    i-th, each after one slash, so that leading, doubled and trailing
    slashes of the path leave no trace in it; its part is the capitalized
    segment, or "Home" capitalized for an empty segment. *)
Theorem landing_crumbs_nth (capitalize : str -> str) (base_url urlpath : str)
    (i : nat) (seg : str) :
  nth_error (split_char 0x2F urlpath) i = Some seg ->
  nth_error (landing_crumbs capitalize base_url urlpath) i
  = Some {| crumb_url :=
              collapsed (rstrip_char 0x2F base_url)
                (firstn (S i) (split_char 0x2F urlpath));
            crumb_part := capitalize (if str_eqb seg [] then u"Home" else seg) |}.
Proof.
  intros Hnth. rewrite landing_crumbs_eq.
  apply (crumbs_from_nth capitalize _ _ [] i seg Hnth).
Qed.

Lemma landing_crumbs_nth_witness :
  nth_error (landing_crumbs ascii_capitalize u"http://host//" u"/searches//builder") 3
  = Some {| crumb_url := u"http://host/searches/builder";
            crumb_part := u"Builder" |}.
Proof.
  apply (landing_crumbs_nth ascii_capitalize u"http://host//" u"/searches//builder"
           3 u"builder").
  reflexivity.
Defined.

Lemma Forall_firstn_keep {X} (P : X -> Prop) (n : nat) (l : list X) :
  Forall P l -> Forall P (firstn n l).
Proof.
  intros H. revert n. induction H as [|x l Hx Hl IH]; intros [|n]; cbn;
    constructor; auto.
Qed.

(** X8: no breadcrumb url ends with a slash, and each one starts with the
    base url without its trailing slashes. *)
Theorem landing_crumbs_urls_clean (capitalize : str -> str) (base_url urlpath : str)
    (crumb : Crumb) :
  In crumb (landing_crumbs capitalize base_url urlpath) ->
  (forall t, crumb_url crumb <> t ++ u"/")
  /\ exists rest, crumb_url crumb = rstrip_char 0x2F base_url ++ rest.
Proof.
  intros Hin. apply In_nth_error in Hin. destruct Hin as [i Hi].
  assert (Hlen : (i < List.length (split_char 0x2F urlpath))%nat).
  { rewrite <- (crumbs_from_length capitalize (rstrip_char 0x2F base_url) _ []),
      <- landing_crumbs_eq.
    apply nth_error_Some. congruence. }
  destruct (nth_error (split_char 0x2F urlpath) i) as [seg|] eqn:Hseg;
    [|apply nth_error_None in Hseg; lia].
  rewrite landing_crumbs_eq, (crumbs_from_nth capitalize _ _ [] i seg Hseg) in Hi.
  assert (Hurl : crumb_url crumb
                 = collapsed (rstrip_char 0x2F base_url)
                     (firstn (S i) (split_char 0x2F urlpath)))
    by (injection Hi as <-; reflexivity).
  clear Hi. rewrite Hurl. clear Hurl.
  assert (Hclean : rstrip_char 0x2F
                     (collapsed (rstrip_char 0x2F base_url)
                        (firstn (S i) (split_char 0x2F urlpath)))
                   = collapsed (rstrip_char 0x2F base_url)
                       (firstn (S i) (split_char 0x2F urlpath))).
  { apply collapsed_no_trailing; [apply rstrip_char_idem|].
    apply Forall_firstn_keep, split_char_free. }
  set (X := collapsed (rstrip_char 0x2F base_url)
              (firstn (S i) (split_char 0x2F urlpath))) in *.
  split.
  - intros t E. rewrite E in Hclean.
    apply (rstrip_char_no_trailing 0x2F (t ++ u"/") t). exact Hclean.
  - unfold X, collapsed. eexists. reflexivity.
Qed.

Lemma landing_crumbs_urls_clean_witness :
  (forall t, u"http://host/searches" <> t ++ u"/")
  /\ exists rest, u"http://host/searches" = rstrip_char 0x2F u"http://host/" ++ rest.
Proof.
  apply (landing_crumbs_urls_clean ascii_capitalize u"http://host/" u"/searches/"
           {| crumb_url := u"http://host/searches"; crumb_part := u"Searches" |}).
  vm_compute. right. left. reflexivity.
Defined.

(** *** The rendered band list determines the bands *)

Lemma lit_inj (s t : string) : lit s = lit t -> s = t.
Proof.
  unfold lit. intros H.
  rewrite <- (string_of_list_ascii_of_string s),
    <- (string_of_list_ascii_of_string t).
  f_equal. revert H.
  generalize (list_ascii_of_string s) (list_ascii_of_string t).
  induction l as [|a l IH]; intros [|b l']; cbn; intros H;
    try discriminate; [reflexivity|].
  injection H as Hab Hl. f_equal; [|now apply IH].
  unfold of_ascii in Hab.
  rewrite <- (ascii_N_embedding a), <- (ascii_N_embedding b). now rewrite Hab.
Qed.

Lemma to_int_not_nil (z : Z) :
  Z.to_int z <> Decimal.Pos Decimal.Nil /\ Z.to_int z <> Decimal.Neg Decimal.Nil.
Proof.
  destruct z as [|p|p]; cbn; split; try discriminate;
    intros [= H]; now apply (Unsigned.to_uint_nonnil p).
Qed.

Lemma str_of_int_inj (a b : Z) : str_of_int a = str_of_int b -> a = b.
Proof.
  unfold str_of_int. intros H. apply lit_inj in H.
  apply DecimalZ.to_int_inj.
  destruct (to_int_not_nil a) as [Ha1 Ha2], (to_int_not_nil b) as [Hb1 Hb2].
  pose proof (NilZero.isi _ Ha1 Ha2) as Ea.
  pose proof (NilZero.isi _ Hb1 Hb2) as Eb.
  rewrite H in Ea. rewrite Ea in Eb. now injection Eb.
Qed.

Lemma string_of_uint_no_comma (d : Decimal.uint) :
  Forall (differs 0x2C) (lit (NilEmpty.string_of_uint d)).
Proof.
  induction d; simpl; constructor; (reflexivity || assumption).
Qed.

Lemma str_of_int_no_comma (z : Z) : Forall (differs 0x2C) (str_of_int z).
Proof.
  unfold str_of_int, NilZero.string_of_int, NilZero.string_of_uint.
  destruct (Z.to_int z) as [d|d]; destruct d;
    repeat (constructor; try reflexivity);
    apply (string_of_uint_no_comma d).
Qed.

Lemma map_str_of_int_inj (l1 l2 : list Z) :
  List.map str_of_int l1 = List.map str_of_int l2 -> l1 = l2.
Proof.
  revert l2. induction l1 as [|a l1 IH]; intros [|b l2]; cbn; intros H;
    try discriminate; [reflexivity|].
  injection H as Hab Hl. f_equal; [now apply str_of_int_inj | now apply IH].
Qed.

Lemma join_bands_inj (b1 b2 : Z) (bs1 bs2 : list Z) :
  join u"," (List.map str_of_int (b1 :: bs1))
  = join u"," (List.map str_of_int (b2 :: bs2)) ->
  b1 :: bs1 = b2 :: bs2.
Proof.
  intros H. apply map_str_of_int_inj.
  rewrite <- (split_char_join 0x2C (List.map str_of_int (b1 :: bs1))),
    <- (split_char_join 0x2C (List.map str_of_int (b2 :: bs2))).
  - change [0x2C] with (u","). now rewrite H.
  - discriminate.
  - apply Forall_map, Forall_forall. intros z _. apply str_of_int_no_comma.
  - discriminate.
  - apply Forall_map, Forall_forall. intros z _. apply str_of_int_no_comma.
Qed.

(** X9: the band list can be read back from the locator.  For one base and
    one name, two non-empty band lists that give the same locator are the
    same list: same integers, same order. *)
Theorem bands_read_back (url : str) (name : option str) (b1 b2 : Z)
    (bs1 bs2 : list Z) (loc : str) :
  SdsParams url name (Some (b1 :: bs1)) = Ok loc ->
  SdsParams url name (Some (b2 :: bs2)) = Ok loc ->
  b1 :: bs1 = b2 :: bs2.
Proof.
  intros H1 H2. apply join_bands_inj.
  assert (Hbands : forall (nm : option str), truthy nm = false ->
            SdsParams url nm (Some (b1 :: bs1)) = Ok loc ->
            SdsParams url nm (Some (b2 :: bs2)) = Ok loc ->
            join u"," (List.map str_of_int (b1 :: bs1))
            = join u"," (List.map str_of_int (b2 :: bs2))).
  { intros nm Hnm E1 E2.
    rewrite SdsParams_bands_only in E1, E2 by exact Hnm.
    assert (E : u"vrt:///vsicurl/" ++ url ++ u"?bands="
                  ++ join u"," (List.map str_of_int (b1 :: bs1))
                = u"vrt:///vsicurl/" ++ url ++ u"?bands="
                  ++ join u"," (List.map str_of_int (b2 :: bs2))) by congruence.
    do 3 apply app_inv_head in E. exact E. }
  destruct name as [[|c n]|].
  - now apply (Hbands (Some [])).
  - destruct (quote_plus (c :: n) u",") as [q|e] eqn:Hq.
    + rewrite (SdsParams_both _ _ q) in H1, H2 by (discriminate || exact Hq).
      assert (E : u"vrt:///vsicurl/" ++ url ++ u"?sd_name=" ++ q ++ u"&bands="
                    ++ join u"," (List.map str_of_int (b1 :: bs1))
                  = u"vrt:///vsicurl/" ++ url ++ u"?sd_name=" ++ q ++ u"&bands="
                    ++ join u"," (List.map str_of_int (b2 :: bs2))) by congruence.
      do 5 apply app_inv_head in E. exact E.
    + rewrite (SdsParams_raise _ _ _ e) in H1 by (discriminate || exact Hq).
      discriminate H1.
  - now apply (Hbands None).
Qed.

Lemma bands_read_back_witness : [4; 3; 2]%Z = [4; 3; 2]%Z.
Proof.
  apply (bands_read_back u"s3://bucket/a.tif" (Some u"sd1") 4 4 [3; 2]%Z [3; 2]%Z
           u"vrt:///vsicurl/s3://bucket/a.tif?sd_name=sd1&bands=4,3,2");
    reflexivity.
Defined.

(** *** The characters of an encoded value *)

Lemma lor_small (a b : N) : a < 256 -> b < 256 -> N.lor a b < 256.
Proof.
  intros Ha Hb.
  destruct (N.eq_dec (N.lor a b) 0) as [E|E]; [rewrite E; lia|].
  change 256 with (2 ^ 8). apply N.log2_lt_pow2; [lia|].
  rewrite N.log2_lor.
  assert (La : N.log2 a < 8).
  { destruct (N.eq_dec a 0) as [->|Na]; [cbn; lia|].
    apply N.log2_lt_pow2; [lia | exact Ha]. }
  assert (Lb : N.log2 b < 8).
  { destruct (N.eq_dec b 0) as [->|Nb]; [cbn; lia|].
    apply N.log2_lt_pow2; [lia | exact Hb]. }
  lia.
Qed.

Lemma land_small (a b : N) : b < 256 -> N.land a b < 256.
Proof.
  intros Hb.
  destruct (N.eq_dec (N.land a b) 0) as [E|E]; [rewrite E; lia|].
  change 256 with (2 ^ 8). apply N.log2_lt_pow2; [lia|].
  pose proof (N.log2_land a b) as H.
  assert (Lb : N.log2 b < 8).
  { destruct (N.eq_dec b 0) as [->|Nb]; [cbn; lia|].
    apply N.log2_lt_pow2; [lia | exact Hb]. }
  lia.
Qed.

Lemma shiftr_small (c k bound : N) : c < bound * 2 ^ k -> N.shiftr c k < bound.
Proof.
  intros H. rewrite N.shiftr_div_pow2.
  apply N.Div0.div_lt_upper_bound. lia.
Qed.

(** The encoder produces bytes. *)
Lemma utf8_encode_char_bytes (c : char) (bs : bytes) :
  utf8_encode_char c = Ok bs -> Forall (fun b => b < 256) bs.
Proof.
  assert (Inv : forall l : bytes, Ok l = Ok bs -> l = bs) by (intros; congruence).
  unfold utf8_encode_char.
  destruct (N.ltb_spec c 0x80) as [H1|H1].
  { intros H. apply Inv in H. subst bs.
    apply Forall_cons; [lia | apply Forall_nil]. }
  destruct (N.ltb_spec c 0x800) as [H2|H2].
  { intros H. apply Inv in H. subst bs.
    repeat (apply Forall_cons || apply Forall_nil).
    - apply lor_small; [lia|]. apply (N.lt_trans _ 32); [|lia].
      apply shiftr_small. change (2 ^ 6) with 64. lia.
    - apply lor_small; [lia|]. apply land_small. lia. }
  destruct (N.ltb_spec c 0x10000) as [H3|H3].
  { destruct (is_surrogate c); [discriminate|].
    intros H. apply Inv in H. subst bs.
    repeat (apply Forall_cons || apply Forall_nil).
    - apply lor_small; [lia|]. apply (N.lt_trans _ 16); [|lia].
      apply shiftr_small. change (2 ^ 12) with 4096. lia.
    - apply lor_small; [lia|]. apply land_small. lia.
    - apply lor_small; [lia|]. apply land_small. lia. }
  intros H. apply Inv in H. subst bs.
  repeat (apply Forall_cons || apply Forall_nil);
    (apply lor_small; [lia|]; apply land_small; lia).
Qed.

Lemma utf8_encode_bytes (s : str) (bs : bytes) :
  utf8_encode s = Ok bs -> Forall (fun b => b < 256) bs.
Proof.
  unfold utf8_encode.
  destruct (mapM utf8_encode_char s) as [chunks|e] eqn:E; cbn [bind];
    [|discriminate].
  intros [= <-]. revert chunks E.
  induction s as [|c s IH]; cbn [mapM]; intros chunks E.
  - injection E as <-. constructor.
  - destruct (utf8_encode_char c) as [b|e] eqn:Hc; cbn [bind] in E; [|discriminate].
    destruct (mapM utf8_encode_char s) as [rest|e]; cbn [bind] in E; [|discriminate].
    injection E as <-. cbn [List.concat]. apply Forall_app. split.
    + now apply utf8_encode_char_bytes with c.
    + now apply IH.
Qed.

Lemma hex_digit_safe (n : N) : n < 16 -> always_safe (hex_digit n) = true.
Proof.
  intros H. unfold hex_digit, always_safe.
  destruct (N.ltb_spec n 10) as [L|L].
  - replace (0x30 <=? 0x30 + n) with true by (symmetry; apply N.leb_le; lia).
    replace (0x30 + n <=? 0x39) with true by (symmetry; apply N.leb_le; lia).
    cbn. now rewrite !orb_true_r.
  - replace (0x41 <=? 0x41 + (n - 10)) with true by (symmetry; apply N.leb_le; lia).
    replace (0x41 + (n - 10) <=? 0x5A) with true by (symmetry; apply N.leb_le; lia).
    reflexivity.
Qed.

(** What one byte is quoted to: itself if it is safe, else a percent sign
    and two hexadecimal digits. *)
Lemma quoter_chars (safe : bytes) (b : N) :
  b < 256 ->
  Forall (fun c => always_safe c || existsb (N.eqb c) safe || (c =? 0x25) = true)
    (quoter safe b).
Proof.
  intros Hb. unfold quoter.
  destruct (always_safe b || existsb (N.eqb b) safe) eqn:E.
  - repeat (apply Forall_cons || apply Forall_nil). now rewrite E.
  - repeat (apply Forall_cons || apply Forall_nil).
    + now rewrite orb_true_r.
    + rewrite hex_digit_safe; [reflexivity|].
      apply N.Div0.div_lt_upper_bound. lia.
    + rewrite hex_digit_safe; [reflexivity|].
      apply N.mod_lt. lia.
Qed.

Lemma quote_chars (s safe q : str) :
  quote s safe = Ok q ->
  Forall (fun c => always_safe c || existsb (N.eqb c) (ascii_ignore safe)
                   || (c =? 0x25) = true) q.
Proof.
  unfold quote. destruct s as [|c0 s]; [intros [= <-]; constructor|].
  destruct (utf8_encode (c0 :: s)) as [bs|e] eqn:E; cbn [bind]; [|discriminate].
  intros [= <-]. apply utf8_encode_bytes in E.
  unfold quote_from_bytes.
  induction E as [|b bs Hb Hbs IH]; [constructor|].
  cbn [List.map List.concat]. apply Forall_app. split; [|exact IH].
  now apply quoter_chars.
Qed.

Lemma in_safe_comma (c : char) :
  existsb (N.eqb c) (ascii_ignore u",") = (c =? 0x2C).
Proof. cbn. apply orb_false_r. Qed.

Lemma in_safe_comma_space (c : char) :
  existsb (N.eqb c) (ascii_ignore (u"," ++ [0x20])) = (c =? 0x2C) || (c =? 0x20).
Proof. cbn. now rewrite orb_false_r. Qed.

(** An encoded value holds unquoted characters, [%] and [+] only: no
    space, [&], [=], [?], [#] or [/]. *)
Lemma quote_plus_chars (s q : str) :
  quote_plus s u"," = Ok q -> Forall (fun c => query_char c = true) q.
Proof.
  unfold quote_plus. destruct (negb (contains 0x20 s)).
  - intros H. apply quote_chars in H.
    eapply Forall_impl; [|exact H].
    intros c Hc. cbn beta in Hc. rewrite in_safe_comma in Hc.
    unfold query_char, unquoted. rewrite Hc. reflexivity.
  - destruct (quote s (u"," ++ [0x20])) as [q0|e] eqn:E; cbn [bind]; [|discriminate].
    intros H. assert (Eq : replace_char 0x20 0x2B q0 = q) by congruence.
    subst q. apply quote_chars in E.
    unfold replace_char. apply Forall_map.
    eapply Forall_impl; [|exact E].
    intros c Hc. cbn beta in Hc |- *. rewrite in_safe_comma_space in Hc.
    unfold char_eqb, query_char, unquoted.
    destruct (c =? 0x20) eqn:Hsp; [reflexivity|].
    rewrite orb_false_r in Hc. rewrite Hc. reflexivity.
Qed.

Lemma contains_query_char (x : char) (q : str) :
  query_char x = false -> Forall (fun c => query_char c = true) q ->
  contains x q = false.
Proof.
  intros Hx Hq. unfold contains.
  induction Hq as [|c q Hc Hq IH]; [reflexivity|].
  cbn [existsb]. rewrite IH, orb_false_r.
  unfold char_eqb. apply N.eqb_neq. intros <-. congruence.
Qed.

(** X10: a name cannot add to the query string.  Whenever the resolver
    returns a locator for a non-empty name, the name stands in it encoded,
    and its encoding holds letters, digits, [_.-~], commas, [%] and [+]
    only: no [&], [=], [?], [#] or space.  The query string is then
    [sd_name=] and the encoding, followed by [&bands=] and the band list if
    there is one. *)
Theorem name_cannot_inject (url n : str) (bands : option (list Z)) (loc : str) :
  n <> [] ->
  SdsParams url (Some n) bands = Ok loc ->
  exists q,
    quote_plus n u"," = Ok q
    /\ Forall (fun c => query_char c = true) q
    /\ contains 0x26 q = false /\ contains 0x3D q = false
    /\ contains 0x3F q = false /\ contains 0x23 q = false
    /\ contains 0x20 q = false
    /\ loc = u"vrt:///vsicurl/" ++ url ++ u"?sd_name=" ++ q
             ++ match bands with
                | Some (b :: bs) =>
                    u"&bands=" ++ join u"," (List.map str_of_int (b :: bs))
                | _ => []
                end.
Proof.
  intros Hn H.
  destruct (quote_plus n u",") as [q|e] eqn:Hq.
  - exists q. pose proof (quote_plus_chars _ _ Hq) as Hchars.
    split; [reflexivity|]. split; [exact Hchars|].
    repeat (split; [now apply contains_query_char|]).
    destruct bands as [[|b bs]|].
    + rewrite (SdsParams_name_only _ _ q) in H by (assumption || reflexivity).
      rewrite app_nil_r. congruence.
    + rewrite (SdsParams_both _ _ q) in H by assumption. congruence.
    + rewrite (SdsParams_name_only _ _ q) in H by (assumption || reflexivity).
      rewrite app_nil_r. congruence.
  - rewrite (SdsParams_raise _ _ _ e) in H by assumption. discriminate H.
Qed.

Lemma name_cannot_inject_witness :
  exists q,
    quote_plus u"a&bands=9 #" u"," = Ok q
    /\ Forall (fun c => query_char c = true) q
    /\ contains 0x26 q = false /\ contains 0x3D q = false
    /\ contains 0x3F q = false /\ contains 0x23 q = false
    /\ contains 0x20 q = false
    /\ u"vrt:///vsicurl/s3://bucket/a.tif?sd_name=a%26bands%3D9+%23&bands=1"
       = u"vrt:///vsicurl/" ++ u"s3://bucket/a.tif" ++ u"?sd_name=" ++ q
         ++ u"&bands=" ++ join u"," (List.map str_of_int [1%Z]).
Proof.
  apply (name_cannot_inject u"s3://bucket/a.tif" u"a&bands=9 #" (Some [1%Z])
           u"vrt:///vsicurl/s3://bucket/a.tif?sd_name=a%26bands%3D9+%23&bands=1").
  - discriminate.
  - vm_compute. reflexivity.
Defined.

(** X11: a name made of letters, digits, [_.-~] and commas reaches the
    locator as it is written, for every base and every band list. *)
Theorem plain_name_verbatim (url n : str) (bands : option (list Z)) :
  n <> [] ->
  Forall (fun c => unquoted c = true) n ->
  SdsParams url (Some n) bands
  = Ok (u"vrt:///vsicurl/" ++ url ++ u"?sd_name=" ++ n
        ++ match bands with
           | Some (b :: bs) =>
               u"&bands=" ++ join u"," (List.map str_of_int (b :: bs))
           | _ => []
           end).
Proof.
  intros Hn Hplain. pose proof (quote_plus_unquoted n Hplain) as Hq.
  destruct bands as [[|b bs]|].
  - rewrite app_nil_r. now apply SdsParams_name_only.
  - now apply SdsParams_both.
  - rewrite app_nil_r. now apply SdsParams_name_only.
Qed.

Lemma plain_name_verbatim_witness :
  SdsParams u"s3://bucket/a.tif" (Some u"B04_10m,B03") None
  = Ok u"vrt:///vsicurl/s3://bucket/a.tif?sd_name=B04_10m,B03".
Proof.
  apply (plain_name_verbatim u"s3://bucket/a.tif" u"B04_10m,B03" None).
  - discriminate.
  - repeat (apply Forall_cons || apply Forall_nil); reflexivity.
Defined.
